(** * slitlessutils: the [Pool] class of [core/utilities/pool.py]

    A shallow embedding of the bounded task pool and the properties of
    its worker-count policy, its serial and parallel execution branches,
    and its handling of the stored function.

    The class rests on three libraries that are not part of the
    repository: [psutil] (the core counts), [tqdm] (the progress bar) and
    [multiprocessing] (the worker set and its ordered [imap]).  What the
    pool uses of them is modelled after their documented behaviour: the
    core counts are arguments of the constructor, the bar advances once
    per item it hands over, and the results of the workers go through
    the reordering buffer of [IMapIterator]. *)

From stdpp Require Import gmap strings list fin_maps pretty.
From Stdlib Require Import ZArith Lia.

Local Open Scope Z_scope.

(** ** Python values, callables and exceptions *)

Section Model.

(** [V] is the type of Python values handed to and returned by the
    iterated function, [E] the type of exceptions it may raise. *)
Context {V E : Type}.

(** A callable stored in [self.func]: either a plain function taking
    positional and keyword arguments, which returns a value or raises,
    or the object built by [functools.partial(c, **kw)]. *)
Inductive callable : Type :=
  | Func (f : list V → gmap string V → V + E)
  | Partial (c : callable) (kw : gmap string V).

(** [apply c a kw] is the call of [c] on the positional arguments [a]
    and the keywords [kw].  Calling a [partial] object merges its stored
    keywords with those of the call, the keywords of the call taking
    precedence ([{**self.keywords, **keywords}]). *)
Fixpoint apply (c : callable) (a : list V) (kw : gmap string V) : V + E :=
  match c with
  | Func f => f a kw
  | Partial c' kw' => apply c' a (kw ∪ kw')
  end.

(** Exceptions that can leave the methods of [Pool]. *)
Inductive exn : Type :=
  | ZeroDivisionError          (* [ncores // ncpus] with [ncpus == 0] *)
  | TypeError_len              (* [len(itrs)] on an object without [__len__] *)
  | ValueError_processes       (* [mp.Pool(processes=n)] with [n < 1] *)
  | Raised (e : E).            (* raised by the iterated function *)

Inductive result (A : Type) : Type :=
  | Ok (a : A)
  | Err (e : exn).
Global Arguments Ok {A} a.
Global Arguments Err {A} e.

(** ** The pool object *)

Record Pool : Type := mkPool {
  ncpu : Z;
  desc : string;
  func : callable
}.

(** [Pool.__init__(func, ncpu, desc)].  The two [ps.cpu_count] readings
    are passed in as integers: [ncpus] is the physical and [ncores] the
    logical core count.  Python's [//] is floor division, as [Z.div] is,
    and raises on a zero divisor. *)
Definition __init__ (ncpus ncores : Z)
    (func : callable) (ncpu : option Z) (desc : string) : result Pool :=
  if decide (ncpus = 0) then Err ZeroDivisionError else
  let nthreads := ncores `div` ncpus in
  let nmax := ncpus - nthreads in
  let resolved :=
    match ncpu with
    | None => nmax
    | Some n => if decide (n ≤ 0) then nmax else Z.min (Z.max n 1) nmax
    end in
  Ok (mkPool resolved desc func).

(** ** Effects of a call

    A method runs against the pool object and a log of what the calling
    process does: the notices sent to the logger, every assignment to
    [self.func], the creation and teardown of the worker set, the calls
    of the function made by the calling process itself, and the ticks of
    the progress bar. *)

Inductive event : Type :=
  | LogSerial                            (* LOGGER.info, serial branch *)
  | LogParallel (total ncpu : Z)         (* LOGGER.info, parallel branch *)
  | SetFunc (c : callable)               (* [self.func = c] *)
  | PoolStart (processes : Z)            (* [mp.Pool(processes=n)] entered *)
  | PoolTerminate                        (* the [with] block left *)
  | Call (a : list V) (kw : gmap string V)
  | BarOpen (total : Z) (desc : string)  (* [tqdm.tqdm(..., total, desc)] *)
  | Tick.                                (* one step of the progress bar *)

Record state : Type := mkState {
  self : Pool;
  trace : list event
}.

(** A computation returns a value or raises; in both cases the state
    reached so far is kept, as Python keeps the mutations made before an
    exception. *)
Definition M (A : Type) : Type := state → result A * state.

#[global] Instance M_ret : MRet M := λ A a s, (Ok a, s).

#[global] Instance M_bind : MBind M := λ A B k m s,
  match m s with
  | (Ok a, s') => k a s'
  | (Err e, s') => (Err e, s')
  end.

Definition raise {A} (e : exn) : M A := λ s, (Err e, s).

Definition emit (ev : event) : M unit :=
  λ s, (Ok tt, mkState (self s) (trace s ++ [ev])).

Definition get_self : M Pool := λ s, (Ok (self s), s).

(** [self.func = c] *)
Definition set_func (c : callable) : M unit :=
  λ s, (Ok tt, mkState (mkPool (ncpu (self s)) (desc (self s)) c)
                       (trace s ++ [SetFunc c])).

(** A call of a callable by the calling process. *)
Definition call_func (c : callable) (a : list V) (kw : gmap string V) : M V :=
  emit (Call a kw);;
  match apply c a kw with
  | inl v => mret v
  | inr e => raise (Raised e)
  end.

(** ** Iterables *)

(** The first argument of a call: the items it yields and whether it
    answers [len()] (a list does, a generator does not). *)
Record iterable : Type := mkIter {
  elems : list V;
  has_len : bool
}.

Definition len (itrs : iterable) : M Z :=
  if has_len itrs then mret (Z.of_nat (length (elems itrs)))
  else raise TypeError_len.

(** ** [Pool.__zip__] and [Pool.__worker__] *)

(** The generator pairing every item with the scalar arguments. *)
Definition __zip__ (itrs : list V) (args : list V) : list (list V) :=
  map (λ itr, itr :: args) itrs.

(** Unpacks a work item and sends it to the stored function. *)
Definition __worker__ (self : Pool) (args : list V) : V + E :=
  apply (func self) args ∅.

(** ** The worker set: [multiprocessing.Pool] and its [imap]

    The standard library's ordered iterator: a result arrives tagged with
    the index of its task, whenever a worker finishes it.  The result the
    consumer waits for goes to [_items], any other one is parked in
    [_unsorted] until its turn comes.  A result is the value returned or
    the exception raised by the task. *)
Record IMapIterator : Type := mkIMap {
  _items : list (V + E);
  _index : nat;
  _unsorted : gmap nat (V + E)
}.

(** The [while self._index in self._unsorted] loop of [_set]; every turn
    pops one parked result, so the number of parked results bounds it. *)
Fixpoint flush (fuel : nat) (it : IMapIterator) : IMapIterator :=
  match fuel with
  | O => it
  | S fuel' =>
      match _unsorted it !! _index it with
      | Some obj =>
          flush fuel' (mkIMap (_items it ++ [obj]) (S (_index it))
                              (delete (_index it) (_unsorted it)))
      | None => it
      end
  end.

Definition _set (it : IMapIterator) (i : nat) (obj : V + E) : IMapIterator :=
  if decide (i = _index it) then
    flush (size (_unsorted it))
          (mkIMap (_items it ++ [obj]) (S (_index it)) (_unsorted it))
  else
    mkIMap (_items it) (_index it) (<[i := obj]> (_unsorted it)).

(** The order in which tasks finish.  Workers take tasks from the queue
    in submission order, so the tasks being run are among the first
    [processes] unfinished ones; which of them finishes next is not
    determined by the program and is read from [oracle]. *)
Fixpoint completion_order (processes : nat) (oracle : list nat)
    (pending : list nat) (fuel : nat) : list nat :=
  match fuel with
  | O => []
  | S fuel' =>
      let running := Nat.min processes (length pending) in
      let k := (hd 0%nat oracle `mod` running)%nat in
      match pending !! k with
      | Some i =>
          i :: completion_order processes (tail oracle) (delete k pending) fuel'
      | None => []
      end
  end.

(** The arrival of the result of task [i]. *)
Definition arrive (f : list V → V + E) (tasks : list (list V))
    (it : IMapIterator) (i : nat) : IMapIterator :=
  match tasks !! i with
  | Some task => _set it i (f task)
  | None => it
  end.

(** [p.imap(f, tasks)] once every task has been run by some worker.
    The consumer only ever takes the head of [_items], to which results
    are appended, so what it reads does not depend on how its reads are
    interleaved with the arrivals: it is the final content of [_items],
    up to the first failed task. *)
Definition imap (processes : nat) (oracle : list nat)
    (f : list V → V + E) (tasks : list (list V)) : IMapIterator :=
  foldl (arrive f tasks) (mkIMap [] 0 ∅)
        (completion_order processes oracle
           (seq 0 (length tasks)) (length tasks)).

(** [list(tqdm.tqdm(imap, ...))]: each [next()] hands over the oldest
    ready result, re-raising the exception of a failed task; the bar
    advances once the consumer has taken a result. *)
Fixpoint collect (ready : list (V + E)) (results : list V) : M (list V) :=
  match ready with
  | [] => mret results
  | inl v :: ready' => emit Tick;; collect ready' (results ++ [v])
  | inr e :: _ => raise (Raised e)
  end.

(** [body] followed, whether it returns or raises, by the event [ev]. *)
Definition on_exit {A} (body : M A) (ev : event) : M A :=
  λ s, let '(r, s') := body s in
       (r, mkState (self s') (trace s' ++ [ev])).

(** [with mp.Pool(processes=n) as p: body].  The constructor refuses
    fewer than one process; leaving the block, normally or by an
    exception, terminates the workers. *)
Definition with_Pool {A} (processes : Z) (body : M A) : M A :=
  if decide (processes < 1) then raise ValueError_processes else
  emit (PoolStart processes);;
  on_exit body PoolTerminate.

(** ** [Pool.__call__] *)

(** The list comprehension of the serial branch: the bar yields an item,
    the function is called on it, its result is appended, and the bar
    advances when the next item is asked for. *)
Fixpoint serial_loop (args : list V) (kwargs : gmap string V)
    (itrs : list V) (results : list V) : M (list V) :=
  match itrs with
  | [] => mret results
  | i :: itrs' =>
      this ← get_self;
      r ← call_func (func this) (i :: args) kwargs;
      emit Tick;;
      serial_loop args kwargs itrs' (results ++ [r])
  end.

Definition serial_branch (total : Z) (itrs : iterable) (args : list V)
    (kwargs : gmap string V) : M (list V) :=
  emit LogSerial;;
  this ← get_self;
  emit (BarOpen total (desc this));;
  serial_loop args kwargs (elems itrs) [].

Definition parallel_branch (total ncpu : Z) (itrs : iterable)
    (args : list V) (kwargs : gmap string V) (oracle : list nat)
    : M (list V) :=
  emit (LogParallel total ncpu);;
  this ← get_self;
  let func := func this in                       (* save it for later *)
  (if decide (kwargs = ∅) then mret tt
   else set_func (Partial func kwargs));;
  results ← with_Pool ncpu (
    this ← get_self;
    let imap := imap (Z.to_nat ncpu) oracle (__worker__ this)
                     (__zip__ (elems itrs) args) in
    emit (BarOpen total (desc this));;
    collect (_items imap) []);
  (if decide (kwargs = ∅) then mret tt
   else set_func func);;                         (* reset it *)
  mret results.

(** [self(itrs, *args, total=total, **kwargs)].  The [oracle] stands for
    the scheduling of the worker processes. *)
Definition __call__ (itrs : iterable) (args : list V) (total : option Z)
    (kwargs : gmap string V) (oracle : list nat) : M (list V) :=
  total ← match total with
          | None => len itrs
          | Some t => mret t
          end;
  this ← get_self;
  let ncpu := Z.min total (ncpu this) in
  if decide (ncpu = 1) then serial_branch total itrs args kwargs
  else parallel_branch total ncpu itrs args kwargs oracle.

(** ** Notions used to state the properties *)

(** The value of a list comprehension over the outcomes [outs] of the
    successive calls, started with [results]: all the values in order, or
    the first exception met. *)
Fixpoint gather (outs : list (V + E)) (results : list V)
    : result (list V) :=
  match outs with
  | [] => Ok results
  | inl v :: outs' => gather outs' (results ++ [v])
  | inr e :: _ => Err (Raised e)
  end.

Definition is_tick (ev : event) : bool :=
  match ev with Tick => true | _ => false end.

(** The number of steps of the progress bar recorded in a trace. *)
Definition ticks (tr : list event) : nat := length (List.filter is_tick tr).

(** A trace in which [self.func] is never assigned. *)
Definition quiet (new : list event) : Prop := ∀ c, SetFunc c ∉ new.

(** The outcomes of calling [c] on every item of [its] with the shared
    arguments [args] and the keywords [kwargs], in the order of [its]. *)
Definition outcomes (c : callable) (args : list V) (kwargs : gmap string V)
    (its : list V) : list (V + E) :=
  (λ i, apply c (i :: args) kwargs) <$> its.

(** The value of [total] after the first statement of [__call__], when
    that statement does not raise. *)
Definition total_in_effect (itrs : iterable) (total : option Z) : Z :=
  default (Z.of_nat (length (elems itrs))) total.

(** What [self.func] holds while the workers run. *)
Definition bound_func (c : callable) (kwargs : gmap string V) : callable :=
  if decide (kwargs = ∅) then c else Partial c kwargs.

(** The pool [this] with [c] as its stored function. *)
Definition with_func (this : Pool) (c : callable) : Pool :=
  mkPool (ncpu this) (desc this) c.

(** The state of an [imap] iterator when the tasks of [D] have finished:
    with [outs] the outcomes of all tasks in submission order, the ready
    queue holds the first [_index] of them and the parked results are
    those of the tasks of [D] from [_index] on ([settled]: beyond
    [_index]). *)
Definition parked (outs : list (V + E)) (D : gset nat)
    (it : IMapIterator) (settled : bool) : Prop :=
  ∀ j, _unsorted it !! j =
       if decide (j ∈ D ∧
                  ((if settled then S (_index it) else _index it) ≤ j)%nat)
       then outs !! j else None.

Record buffered (outs : list (V + E)) (D : gset nat)
    (it : IMapIterator) (settled : bool) : Prop := {
  buf_index : (_index it ≤ length outs)%nat;
  buf_items : _items it = take (_index it) outs;
  buf_below : ∀ j, (j < _index it)%nat → j ∈ D;
  buf_bound : ∀ j, j ∈ D → (j < length outs)%nat;
  buf_parked : parked outs D it settled
}.

End Model.

(** ** Sample data

    A function over integers that adds the keyword [offset] (default 0)
    to its item and refuses the item 3; in Python:
    [def shift(x, *rest, offset=0)], raising when [x == 3]. *)

Definition shift (a : list Z) (kw : gmap string Z) : Z + string :=
  match a with
  | [] => inr "missing item"%string
  | x :: _ =>
      if decide (x = 3) then inr "bad item"%string
      else inl (x + default 0 (kw !! "offset"%string))
  end.

(** The same function without the refusal, as a function that always
    returns. *)
Definition shift_all (a : list Z) (kw : gmap string Z) : Z :=
  hd 0 a + default 0 (kw !! "offset"%string).

Definition offset100 : gmap string Z := {[ "offset"%string := 100 ]}.

(** A pool of two workers around [shift], and a pool of one worker and
    one of two around [shift_all]. *)
Definition shift_pool : @Pool Z string := mkPool 2 "shift" (Func shift).

Definition single_pool : @Pool Z string :=
  mkPool 1 "shift" (Func (λ a kw, inl (shift_all a kw))).

Definition double_pool : @Pool Z string :=
  mkPool 2 "shift" (Func (λ a kw, inl (shift_all a kw))).

(** A list of five items, the third of which [shift] refuses, a list of
    two items, the empty list, and a generator over two items. *)
Definition five : @iterable Z := mkIter [1; 2; 3; 4; 5] true.

Definition two : @iterable Z := mkIter [1; 2] true.

Definition nothing : @iterable Z := mkIter [] true.

Definition pair_generator : @iterable Z := mkIter [1; 2] false.

(** The state of a pool that has not been called yet. *)
Definition fresh (this : @Pool Z string) : @state Z string := mkState this [].

(** ** Observations on traces and outcomes *)

Section Observations.
Context {V E : Type}.

(** The number of outcomes before the first exception. *)
Fixpoint leading (outs : list (V + E)) : nat :=
  match outs with
  | inl _ :: outs' => S (leading outs')
  | _ => 0%nat
  end.

(** The calls of the function made by the calling process, in order. *)
Fixpoint calls (tr : list (@event V E)) : list (list V * gmap string V) :=
  match tr with
  | [] => []
  | Call a kw :: tr' => (a, kw) :: calls tr'
  | _ :: tr' => calls tr'
  end.

(** The worker sets created and those terminated. *)
Fixpoint opened (tr : list (@event V E)) : nat :=
  match tr with
  | [] => 0%nat
  | PoolStart _ :: tr' => S (opened tr')
  | _ :: tr' => opened tr'
  end.

Fixpoint closed (tr : list (@event V E)) : nat :=
  match tr with
  | [] => 0%nat
  | PoolTerminate :: tr' => S (closed tr')
  | _ :: tr' => closed tr'
  end.

(** The events of the list comprehension of the serial branch. *)
Fixpoint serial_events (c : @callable V E) (args : list V)
    (kwargs : gmap string V) (its : list V) : list (@event V E) :=
  match its with
  | [] => []
  | i :: its' =>
      Call (i :: args) kwargs ::
      match apply c (i :: args) kwargs with
      | inl _ => Tick :: serial_events c args kwargs its'
      | inr _ => []
      end
  end.

(** The events of the parallel branch when the worker set can be
    created, [outs] being the outcomes of the tasks. *)
Definition parallel_events (total ncpu : Z) (this : @Pool V E)
    (kwargs : gmap string V) (outs : list (V + E)) : list (@event V E) :=
  LogParallel total ncpu ::
  (if decide (kwargs = ∅) then []
   else [SetFunc (Partial (func this) kwargs)]) ++
  [PoolStart ncpu; BarOpen total (desc this)] ++
  replicate (leading outs) Tick ++
  [PoolTerminate] ++
  match gather outs [] with
  | Ok _ => if decide (kwargs = ∅) then [] else [SetFunc (func this)]
  | Err _ => []
  end.

(** What the caller can tell of an exception that leaves a method: its
    Python class.  The error of [len] is the builtin [TypeError], let
    out as it is, the error of the worker-set constructor a
    [ValueError]; an exception of the function has the class that
    [class_of] gives it. *)
Definition exc_class (class_of : E → string) (e : @exn E) : string :=
  match e with
  | ZeroDivisionError => "ZeroDivisionError"
  | TypeError_len => "TypeError"
  | ValueError_processes => "ValueError"
  | Raised e => class_of e
  end.

(** What a call returns and the state it leaves, described without the
    scheduling of the workers: the failure of [len], the serial branch,
    the parallel branch refused by the worker set, and the parallel
    branch run. *)
Definition call_outcome (itrs : @iterable V) (args : list V)
    (total : option Z) (kwargs : gmap string V) (s : @state V E)
    : @result E (list V) * @state V E :=
  let t := total_in_effect itrs total in
  let n := Z.min t (ncpu (self s)) in
  let outs := outcomes (func (self s)) args kwargs (elems itrs) in
  if decide (total = None ∧ has_len itrs = false) then
    (Err TypeError_len, s)
  else if decide (n = 1) then
    (gather outs [],
     mkState (self s)
       (trace s ++ LogSerial :: BarOpen t (desc (self s)) ::
          serial_events (func (self s)) args kwargs (elems itrs)))
  else if decide (n < 1) then
    (Err ValueError_processes,
     mkState (with_func (self s) (bound_func (func (self s)) kwargs))
       (trace s ++ LogParallel t n ::
          if decide (kwargs = ∅) then []
          else [SetFunc (Partial (func (self s)) kwargs)]))
  else
    (gather outs [],
     mkState
       (match gather outs [] with
        | Ok _ => self s
        | Err _ => with_func (self s) (bound_func (func (self s)) kwargs)
        end)
       (trace s ++ parallel_events t n (self s) kwargs outs)).

End Observations.

(** ** [Pool.__str__] *)

(** The line separator of Python's [join]. *)
Definition newline : string := String (Ascii.ascii_of_nat 10) EmptyString.

(** The text up to the first line separator. *)
Fixpoint first_line (s : string) : string :=
  match s with
  | EmptyString => EmptyString
  | String a s' =>
      if decide (a = Ascii.ascii_of_nat 10) then EmptyString
      else String a (first_line s')
  end.

Fixpoint no_newline (s : string) : Prop :=
  match s with
  | EmptyString => True
  | String a s' => a ≠ Ascii.ascii_of_nat 10 ∧ no_newline s'
  end.

Section Printing.
Context {V E : Type}.

(** The text Python gives for the stored function, which the class
    takes from the function object. *)
Variable repr : @callable V E → string.

(** The three lines of the description, joined by line separators; an
    integer is printed in decimal, with a minus sign when negative. *)
Definition __str__ (this : @Pool V E) : string :=
  let lines := ["Pool object with:"%string;
                "NCPU = " +:+ pretty (ncpu this);
                "FUNC = " +:+ repr (func this)] in
  String.concat newline lines.

End Printing.

(** ** More sample data *)

(** The exceptions of [shift] are [TypeError]s carrying the message. *)
Definition shift_class (message : string) : string := "TypeError".

(** * Properties *)

(** ** The ordered iterator *)

Section Buffer.
Context {V E : Type}.
Implicit Types (it : @IMapIterator V E) (D : gset nat) (outs : list (V + E)).

Lemma buffered_index_fresh outs D it :
  buffered outs D it false → _unsorted it !! _index it = None → _index it ∉ D.
Proof.
  intros [_ _ _ Hb Hp] Hnone Hin.
  specialize (Hp (_index it)). rewrite Hnone in Hp.
  rewrite decide_True in Hp; [|split; [done|lia]].
  symmetry in Hp. apply lookup_ge_None in Hp.
  apply Hb in Hin. lia.
Qed.

Lemma buffered_settle outs D it :
  buffered outs D it false → _unsorted it !! _index it = None →
  buffered outs D it true ∧ _index it ∉ D.
Proof.
  intros Hbuf Hnone.
  pose proof (buffered_index_fresh _ _ _ Hbuf Hnone) as Hfresh.
  split; [|done]. destruct Hbuf as [Hi Hit Hbl Hb Hp].
  split; try done. intros j. rewrite (Hp j).
  destruct (decide (j = _index it)) as [->|Hne].
  - rewrite !decide_False; [done|intros [? ?]; done..].
  - apply decide_ext. split; intros [? ?]; split; (done || lia).
Qed.

Lemma flush_buffered outs D fuel : ∀ it,
  buffered outs D it false → (size (_unsorted it) ≤ fuel)%nat →
  buffered outs D (flush fuel it) true ∧ _index (flush fuel it) ∉ D.
Proof.
  induction fuel as [|fuel IH]; intros it Hbuf Hsize; simpl.
  - apply buffered_settle; [done|].
    assert (_unsorted it = ∅) as -> by (apply map_size_empty_inv; lia).
    apply lookup_empty.
  - destruct (_unsorted it !! _index it) as [obj|] eqn:Hlook;
      [|by apply buffered_settle].
    destruct Hbuf as [Hi Hit Hbl Hb Hp].
    pose proof (Hp (_index it)) as Hhere. rewrite Hlook in Hhere.
    case_decide as Hd; [|done]. destruct Hd as [Hin _]. symmetry in Hhere.
    apply IH; simpl.
    + split; simpl.
      * apply lookup_lt_Some in Hhere. lia.
      * rewrite Hit. symmetry. by apply take_S_r.
      * intros j Hj. destruct (decide (j = _index it)) as [->|]; [done|].
        apply Hbl. lia.
      * done.
      * intros j. simpl. destruct (decide (j = _index it)) as [->|Hne].
        -- rewrite lookup_delete_eq, decide_False; [done|]. intros [_ ?]. lia.
        -- rewrite lookup_delete_ne; [|done]. rewrite (Hp j).
           apply decide_ext. split; intros [? ?]; split; (done || lia).
    + rewrite map_size_delete, Hlook. simpl. lia.
Qed.


Lemma elem_of_finished D (i j : nat) : j ∈ D ∪ {[i]} ↔ j ∈ D ∨ j = i.
Proof. by rewrite elem_of_union, elem_of_singleton. Qed.

Lemma _set_buffered outs D it i obj :
  buffered outs D it true → _index it ∉ D →
  i ∉ D → outs !! i = Some obj →
  buffered outs (D ∪ {[i]}) (_set it i obj) true
  ∧ _index (_set it i obj) ∉ D ∪ {[i]}.
Proof.
  intros [Hi Hit Hbl Hb Hp] Hfresh Hnew Hobj. unfold _set.
  assert (∀ j, j ∈ D ∪ {[i]} → (j < length outs)%nat) as Hb'.
  { intros j [?| ->]%elem_of_finished; [by apply Hb|].
    by apply lookup_lt_Some in Hobj. }
  case_decide as Hcase.
  - subst i. apply flush_buffered; [|done]. split; simpl; try done.
    + apply lookup_lt_Some in Hobj. lia.
    + rewrite Hit. symmetry. by apply take_S_r.
    + intros j Hj. apply elem_of_finished.
      destruct (decide (j = _index it)) as [->|]; [by right|].
      left. apply Hbl. lia.
    + intros j. simpl. rewrite (Hp j). apply decide_ext.
      rewrite elem_of_finished. split; [intros [? ?]; by auto|].
      intros [[?| ->] ?]; [done|lia].
  - assert (_index it < i)%nat as Hlt.
    { destruct (decide (i < _index it)%nat) as [Hl|]; [|lia].
      by apply Hbl in Hl. }
    split; [split; simpl; try done|].
    + intros j ?. by apply elem_of_union_l, Hbl.
    + intros j. simpl. destruct (decide (j = i)) as [->|Hne].
      * rewrite lookup_insert_eq, decide_True; [done|].
        split; [by apply elem_of_finished; right|lia].
      * rewrite lookup_insert_ne; [|done]. rewrite (Hp j).
        apply decide_ext. rewrite elem_of_finished.
        split; [intros [? ?]; by auto|]. by intros [[?|?] ?].
    + simpl. intros [?|?]%elem_of_finished; [done|lia].
Qed.

Lemma arrivals_buffered f tasks ord : ∀ D it,
  buffered (f <$> tasks) D it true → _index it ∉ D →
  NoDup ord → (∀ i, i ∈ ord → (i ∉ D) ∧ (i < length tasks)%nat) →
  buffered (f <$> tasks) (D ∪ list_to_set ord)
           (foldl (arrive f tasks) it ord) true
  ∧ _index (foldl (arrive f tasks) it ord) ∉ D ∪ list_to_set ord.
Proof.
  induction ord as [|i ord IH]; intros D it Hbuf Hfresh Hnd Hord; simpl.
  - by rewrite (right_id_L ∅ (∪)).
  - apply NoDup_cons in Hnd as [Hi Hnd].
    destruct (Hord i) as [HiD Hlen]; [left|].
    destruct (lookup_lt_is_Some_2 tasks i Hlen) as [task Htask].
    assert ((f <$> tasks) !! i = Some (f task)) as Hout
      by (by rewrite list_lookup_fmap, Htask).
    destruct (_set_buffered _ _ _ _ _ Hbuf Hfresh HiD Hout) as [Hbuf' Hfresh'].
    unfold arrive at 2 4. rewrite Htask.
    rewrite (assoc_L (∪)).
    apply IH; try done.
    intros j Hj. destruct (Hord j) as [? ?]; [by right|].
    split; [|done]. intros [?| ->]%elem_of_finished; done.
Qed.

Lemma completion_order_Permutation processes fuel : ∀ oracle pending,
  (1 ≤ processes)%nat → (length pending ≤ fuel)%nat →
  completion_order processes oracle pending fuel ≡ₚ pending.
Proof.
  induction fuel as [|fuel IH]; intros oracle pending Hp Hlen; simpl.
  - destruct pending; [done|simpl in Hlen; lia].
  - destruct pending as [|p pending]; [by destruct (hd _ _ `mod` _)%nat|].
    set (k := (_ `mod` _)%nat).
    assert (k < length (p :: pending))%nat as Hk.
    { pose proof (Nat.mod_upper_bound (hd 0%nat oracle)
                    (processes `min` length (p :: pending))) as Hm.
      simpl in *. unfold k. lia. }
    destruct (lookup_lt_is_Some_2 _ _ Hk) as [i Hi]. rewrite Hi.
    rewrite (delete_Permutation _ _ _ Hi) at 2. constructor.
    apply IH; [done|]. rewrite length_delete by eauto. simpl in *. lia.
Qed.

(** Once every task has been run, the iterator holds the outcomes of the
    tasks in submission order, whatever the order of completion. *)
Lemma imap_items processes oracle
    (f : list V → V + E) (tasks : list (list V)) :
  (1 ≤ processes)%nat →
  _items (imap processes oracle f tasks) = f <$> tasks.
Proof.
  intros Hp. unfold imap.
  set (ord := completion_order _ _ _ _).
  assert (ord ≡ₚ seq 0 (length tasks)) as Hperm
    by (apply completion_order_Permutation; [done|by rewrite length_seq]).
  assert (∀ i, i ∈ ord ↔ (i < length tasks)%nat) as Hall.
  { intros i. rewrite Hperm, elem_of_seq. lia. }
  assert (NoDup ord) as Hnd by (rewrite Hperm; apply NoDup_seq).
  clearbody ord.
  destruct (arrivals_buffered f tasks ord ∅ (mkIMap [] 0 ∅)) as [Hbuf Hfresh].
  - split; simpl; [lia|done|lia|by intros j ?%not_elem_of_empty|].
    intros j. simpl. rewrite lookup_empty.
    by rewrite decide_False by (by intros [?%not_elem_of_empty _]).
  - apply not_elem_of_empty.
  - done.
  - intros i Hi. apply Hall in Hi. split; [apply not_elem_of_empty|done].
  -     destruct Hbuf as [Hi Hit _ _ _]. rewrite Hit. apply take_ge.
    rewrite length_fmap in *.
    destruct (decide (_index (foldl (arrive f tasks) (mkIMap [] 0 ∅) ord)
                      < length tasks)%nat) as [Hlt|]; [|lia].
    exfalso. apply Hfresh. apply elem_of_union_r, elem_of_list_to_set.
    by apply Hall.
Qed.

End Buffer.
(** ** Traces and states *)

Section Traces.
Context {V E : Type}.
Implicit Types (s : @state V E) (this : @Pool V E).
Implicit Types (tr new : list (@event V E)).

Lemma ticks_app tr1 tr2 : ticks (tr1 ++ tr2) = (ticks tr1 + ticks tr2)%nat.
Proof. unfold ticks. by rewrite List.filter_app, length_app. Qed.

Lemma state_eta s : mkState (self s) (trace s) = s.
Proof. by destruct s. Qed.

Lemma run_eq {A} (r : @result E A) this this' tr tr' :
  this = this' → tr = tr' → (r, mkState this tr) = (r, mkState this' tr').
Proof. by intros -> ->. Qed.

Lemma with_func_same this : with_func this (func this) = this.
Proof. by destruct this. Qed.

Lemma quiet_nil : @quiet V E [].
Proof. intros c Hc. by apply elem_of_nil in Hc. Qed.

Lemma quiet_cons ev new :
  (∀ c, ev ≠ SetFunc c) → quiet new → quiet (ev :: new).
Proof.
  intros Hev Hq c [Hc|Hc]%elem_of_cons; [by eapply Hev|by eapply Hq].
Qed.

Lemma quiet_app new1 new2 : quiet new1 → quiet new2 → quiet (new1 ++ new2).
Proof. intros H1 H2 c [Hc|Hc]%elem_of_app; [by eapply H1|by eapply H2]. Qed.

End Traces.

(** Traces built from events other than assignments are quiet. *)
Ltac quiet :=
  repeat first
    [ assumption
    | apply quiet_nil
    | apply quiet_app
    | apply quiet_cons; [done|] ].

(** ** Runs of the loops and of the two branches *)

(** Unfolds the primitives of the effect monad and computes. *)
Ltac run :=
  unfold mbind, M_bind, mret, M_ret, emit, get_self, set_func, call_func,
         raise;
  cbn.

Section Runs.
Context {V E : Type}.
Implicit Types (s : @state V E) (c : @callable V E) (this : @Pool V E).
Implicit Types (kw kwargs : gmap string V) (args : list V).
Implicit Types (itrs : @iterable V) (tr new : list (@event V E)).

Lemma apply_Partial_bare c kw a : apply (Partial c kw) a ∅ = apply c a kw.
Proof. simpl. by rewrite (left_id_L ∅ (∪)). Qed.

Lemma gather_values {A} (h : A → V) (xs : list A) : ∀ acc,
  gather (E:=E) ((λ x, inl (h x)) <$> xs) acc = Ok (acc ++ (h <$> xs)).
Proof.
  induction xs as [|x xs IH]; intros acc; simpl.
  - by rewrite app_nil_r.
  - by rewrite IH, <- app_assoc.
Qed.

Lemma gather_failure (vs : list V) (e : E) (rest : list (V + E)) : ∀ acc,
  gather ((inl <$> vs) ++ inr e :: rest) acc = Err (Raised e).
Proof. induction vs as [|v vs IH]; intros acc; simpl; [done|apply IH]. Qed.

Lemma serial_loop_run args kw (its : list V) : ∀ acc s, ∃ new,
  serial_loop args kw its acc s =
    (gather ((λ i, apply (func (self s)) (i :: args) kw) <$> its) acc,
     mkState (self s) (trace s ++ new))
  ∧ quiet new
  ∧ (∀ r, gather ((λ i, apply (func (self s)) (i :: args) kw) <$> its) acc
          = Ok r → ticks new = length its).
Proof.
  induction its as [|i its IH]; intros acc s.
  - exists []. simpl. rewrite app_nil_r, state_eta.
    split; [done|]. split; [quiet|done].
  - cbn. run.
    destruct (apply (func (self s)) (i :: args) kw) as [v|e] eqn:Hout; cbn.
    + destruct (IH (acc ++ [v])
                  (mkState (self s)
                     ((trace s ++ [Call (i :: args) kw]) ++ [Tick])))
        as (new & Hrun & Hq & Hticks). simpl in *.
      exists (Call (i :: args) kw :: Tick :: new). rewrite Hrun.
      split; [by rewrite <- !app_assoc|]. split.
      * quiet.
      * intros r Hr. specialize (Hticks r Hr). unfold ticks in *. simpl.
        by rewrite Hticks.
    + exists [Call (i :: args) kw]. split; [done|]. split; [quiet|done].
Qed.

Lemma collect_run (ready : list (V + E)) : ∀ acc s, ∃ new,
  collect ready acc s =
    (gather ready acc, mkState (self s) (trace s ++ new))
  ∧ quiet new
  ∧ (∀ r, gather ready acc = Ok r → ticks new = length ready).
Proof.
  induction ready as [|[v|e] ready IH]; intros acc s.
  - exists []. simpl. rewrite app_nil_r, state_eta.
    split; [done|]. split; [quiet|done].
  - cbn. run.
    destruct (IH (acc ++ [v]) (mkState (self s) (trace s ++ [Tick])))
      as (new & Hrun & Hq & Hticks). simpl in *.
    exists (Tick :: new). rewrite Hrun.
    split; [by rewrite <- !app_assoc|]. split.
    + quiet.
    + intros r Hr. specialize (Hticks r Hr). unfold ticks in *. simpl.
      by rewrite Hticks.
  - exists []. simpl. unfold raise. rewrite app_nil_r, state_eta.
    split; [done|]. split; [quiet|done].
Qed.


Lemma serial_branch_run t itrs args kw s : ∃ new,
  serial_branch t itrs args kw s =
    (gather (outcomes (func (self s)) args kw (elems itrs)) [],
     mkState (self s) (trace s ++ LogSerial :: new))
  ∧ quiet new
  ∧ (∀ r, gather (outcomes (func (self s)) args kw (elems itrs)) [] = Ok r →
          ticks new = length (elems itrs)).
Proof.
  unfold serial_branch. run.
  destruct (serial_loop_run args kw (elems itrs) []
              (mkState (self s)
                 ((trace s ++ [LogSerial]) ++ [BarOpen t (desc (self s))])))
    as (new & Hrun & Hq & Hticks). simpl in *.
  exists (BarOpen t (desc (self s)) :: new). rewrite Hrun.
  split; [by rewrite <- !app_assoc|]. split; [quiet|].
  intros r Hr. specialize (Hticks r Hr). unfold ticks in *. simpl.
  by rewrite Hticks.
Qed.

Lemma worker_outcomes this args kw (its : list V) :
  __worker__ (with_func this (bound_func (func this) kw)) <$> __zip__ its args
  = outcomes (func this) args kw its.
Proof.
  unfold __zip__, outcomes, __worker__, bound_func. rewrite <- list_fmap_compose.
  apply list_fmap_ext. intros _ i _. simpl.
  case_decide as Hkw; [by subst kw|apply apply_Partial_bare].
Qed.

Lemma parallel_branch_refused t n itrs args kw oracle s :
  n < 1 →
  parallel_branch t n itrs args kw oracle s =
    (Err ValueError_processes,
     mkState (with_func (self s) (bound_func (func (self s)) kw))
             (trace s ++ LogParallel t n ::
                if decide (kw = ∅) then []
                else [SetFunc (Partial (func (self s)) kw)])).
Proof.
  intros Hn. unfold parallel_branch, with_Pool, bound_func.
  rewrite (decide_True (P := n < 1)) by done.
  destruct (decide (kw = ∅)) as [Hkw|Hkw].
  all: run.
  - by rewrite with_func_same.
  - by rewrite <- app_assoc.
Qed.

Lemma parallel_branch_run t n itrs args kw oracle s :
  1 ≤ n → ∃ new,
  parallel_branch t n itrs args kw oracle s =
    (gather (outcomes (func (self s)) args kw (elems itrs)) [],
     mkState
       (match gather (outcomes (func (self s)) args kw (elems itrs)) [] with
        | Ok _ => self s
        | Err _ => with_func (self s) (bound_func (func (self s)) kw)
        end)
       (trace s ++ LogParallel t n :: new))
  ∧ (kw = ∅ → quiet new)
  ∧ (∀ r, gather (outcomes (func (self s)) args kw (elems itrs)) [] = Ok r →
          ticks new = length (elems itrs)).
Proof.
  intros Hn.
  pose proof (worker_outcomes (self s) args kw (elems itrs)) as Hw.
  pose proof (imap_items (Z.to_nat n) oracle
                (__worker__ (with_func (self s) (bound_func (func (self s)) kw)))
                (__zip__ (elems itrs) args) ltac:(lia)) as Hitems.
  rewrite Hw in Hitems. clear Hw.
  unfold parallel_branch, with_Pool, on_exit, bound_func in *.
  rewrite (decide_False (P := n < 1)) by lia.
  destruct (decide (kw = ∅)) as [Hkw|Hkw].
  all: run.
  all: rewrite ?with_func_same in Hitems; unfold with_func in Hitems.
  all: rewrite Hitems.
  all: match goal with |- context [collect ?r ?a ?st] =>
         destruct (collect_run r a st) as (new & Hrun & Hq & Hticks) end.
  all: simpl in *; rewrite Hrun.
  all: destruct (gather _ []) as [r|e] eqn:Hg; cbn.
  - exists (PoolStart n :: BarOpen t (desc (self s)) :: new ++ [PoolTerminate]).
    split; [apply run_eq; [done|by rewrite <- !app_assoc]|]. split.
    + intros _. quiet.
    + intros r' _. specialize (Hticks r eq_refl).
      unfold ticks, outcomes in *. rewrite length_fmap in Hticks. simpl.
      rewrite List.filter_app, length_app. simpl. lia.
  - exists (PoolStart n :: BarOpen t (desc (self s)) :: new ++ [PoolTerminate]).
    split; [apply run_eq; [by destruct (self s)|by rewrite <- !app_assoc]|].
    split; [|done].
    intros _. quiet.
  - exists (SetFunc (Partial (func (self s)) kw) :: PoolStart n ::
            BarOpen t (desc (self s)) :: new ++
            [PoolTerminate; SetFunc (func (self s))]).
    split; [apply run_eq; [by destruct (self s)|]|split; [done|]].
    + by repeat (rewrite <- app_assoc; simpl).
    + intros r' _. specialize (Hticks r eq_refl).
      unfold ticks, outcomes in *. rewrite length_fmap in Hticks. simpl.
      rewrite List.filter_app, length_app. simpl. lia.
  - exists (SetFunc (Partial (func (self s)) kw) :: PoolStart n ::
            BarOpen t (desc (self s)) :: new ++ [PoolTerminate]).
    split; [|done]. apply run_eq; [done|]. by rewrite <- !app_assoc.
Qed.

End Runs.

(** ** The call as a whole *)

Section Call.
Context {V E : Type}.
Implicit Types (s : @state V E) (c : @callable V E) (this : @Pool V E).
Implicit Types (kw kwargs : gmap string V) (args : list V).
Implicit Types (itrs : @iterable V) (tr new : list (@event V E)).

Lemma call_unsized itrs args kw oracle s :
  has_len itrs = false →
  __call__ itrs args None kw oracle s = (Err TypeError_len, s).
Proof. intros Hlen. unfold __call__, len. by rewrite Hlen. Qed.

Lemma call_sized itrs args total kw oracle s :
  (total = None → has_len itrs = true) →
  __call__ itrs args total kw oracle s =
    if decide (Z.min (total_in_effect itrs total) (ncpu (self s)) = 1)
    then serial_branch (total_in_effect itrs total) itrs args kw s
    else parallel_branch (total_in_effect itrs total)
           (Z.min (total_in_effect itrs total) (ncpu (self s)))
           itrs args kw oracle s.
Proof.
  intros Hlen. unfold __call__, total_in_effect, len.
  destruct total as [t|]; [|rewrite Hlen by done];
    unfold mbind, M_bind, mret, M_ret, get_self; cbn; by case_decide.
Qed.

(** In both branches the call returns the values of the function on the
    items, in their order, or raises the exception of the first item the
    function refuses. *)
Lemma call_result itrs args total kw oracle s :
  (total = None → has_len itrs = true) →
  1 ≤ Z.min (total_in_effect itrs total) (ncpu (self s)) →
  (__call__ itrs args total kw oracle s).1
  = gather (outcomes (func (self s)) args kw (elems itrs)) [].
Proof.
  intros Hlen Hn. rewrite call_sized by done. case_decide.
  - by destruct (serial_branch_run (total_in_effect itrs total) itrs args kw s)
      as (new & -> & _).
  - by destruct (parallel_branch_run (total_in_effect itrs total) _
                   itrs args kw oracle s Hn) as (new & -> & _).
Qed.

(** When the function returns on the first items and raises [e] on the
    next one, the call raises [e]: no list is returned, whatever the
    function would do on the items that follow. *)
Lemma call_propagates_failure itrs args total kw oracle s vs e rest :
  (total = None → has_len itrs = true) →
  1 ≤ Z.min (total_in_effect itrs total) (ncpu (self s)) →
  outcomes (func (self s)) args kw (elems itrs)
  = (inl <$> vs) ++ inr e :: rest →
  (__call__ itrs args total kw oracle s).1 = Err (Raised e).
Proof.
  intros Hlen Hn Houts. rewrite call_result by done.
  rewrite Houts. apply gather_failure.
Qed.

(** What every call does to the state: it extends the trace, keeps the
    worker count and the description, assigns the stored function
    neither in the serial branch nor without keywords, and, when it
    returns, has restored the pool and advanced the bar once per item. *)
Lemma call_run itrs args total kw oracle s :
  ∃ new,
    trace (__call__ itrs args total kw oracle s).2 = trace s ++ new
    ∧ ncpu (self (__call__ itrs args total kw oracle s).2) = ncpu (self s)
    ∧ desc (self (__call__ itrs args total kw oracle s).2) = desc (self s)
    ∧ (Z.min (total_in_effect itrs total) (ncpu (self s)) = 1 ∨ kw = ∅ →
       quiet new ∧ self (__call__ itrs args total kw oracle s).2 = self s)
    ∧ (∀ r, (__call__ itrs args total kw oracle s).1 = Ok r →
       self (__call__ itrs args total kw oracle s).2 = self s
       ∧ ticks new = length (elems itrs)).
Proof.
  set (t := total_in_effect itrs total). set (n := Z.min t (ncpu (self s))).
  destruct (decide (total = None ∧ has_len itrs = false)) as [[-> Hlen]|Hsz].
  { rewrite call_unsized by done. exists []. simpl. rewrite app_nil_r.
    do 3 (split; [done|]). split; [|done]. intros _. split; [quiet|done]. }
  rewrite call_sized
    by (intros ->; destruct (has_len itrs); [done|by destruct Hsz]).
  fold t n. case_decide as Hmode.
  - destruct (serial_branch_run t itrs args kw s) as (new & -> & Hq & Hticks).
    exists (LogSerial :: new). simpl. do 3 (split; [done|]). split.
    + intros _. split; [quiet|done].
    + intros r Hr. split; [done|]. apply (Hticks r Hr).
  - destruct (decide (n < 1)) as [Hn|Hn].
    + rewrite parallel_branch_refused by done. eexists. simpl.
      do 3 (split; [done|]). split; [|done]. intros [?| ->]; [done|].
      unfold bound_func. rewrite !decide_True by done.
      split; [quiet|apply with_func_same].
    + apply Z.nlt_ge in Hn.
      destruct (parallel_branch_run t n itrs args kw oracle s Hn)
        as (new & -> & Hq & Hticks).
      exists (LogParallel t n :: new). simpl.
      split; [done|]. split; [by destruct (gather _ _)|].
      split; [by destruct (gather _ _)|]. split.
      * intros [?|Hkw]; [done|]. split; [quiet; by apply Hq|].
        destruct (gather _ _); [done|]. unfold bound_func.
        rewrite decide_True by done. apply with_func_same.
      * intros r Hr. rewrite Hr. split; [done|]. apply (Hticks r Hr).
Qed.

(** A call that returns leaves the pool as it found it. *)
Lemma call_ok_pool_unchanged itrs args total kw oracle s r s' :
  __call__ itrs args total kw oracle s = (Ok r, s') → self s' = self s.
Proof.
  intros Hcall.
  destruct (call_run itrs args total kw oracle s) as (new & _ & _ & _ & _ & Hok).
  rewrite Hcall in Hok. by apply (Hok r).
Qed.

(** A failure in the serial branch leaves the pool as it found it too. *)
Lemma serial_call_pool_unchanged itrs args total kw oracle s :
  Z.min (total_in_effect itrs total) (ncpu (self s)) = 1 →
  self (__call__ itrs args total kw oracle s).2 = self s.
Proof.
  intros Hn.
  destruct (call_run itrs args total kw oracle s) as (new & _ & _ & _ & Hq & _).
  by apply Hq; left.
Qed.

(** The notice logged first tells the branch taken: the serial one when
    the effective count is 1, the parallel one for every other count. *)
Lemma call_logs_mode itrs args total kw oracle s :
  (total = None → has_len itrs = true) →
  ∃ new,
    trace (__call__ itrs args total kw oracle s).2
    = trace s ++
      (if decide (Z.min (total_in_effect itrs total) (ncpu (self s)) = 1)
       then LogSerial
       else LogParallel (total_in_effect itrs total)
              (Z.min (total_in_effect itrs total) (ncpu (self s)))) :: new.
Proof.
  intros Hlen. rewrite call_sized by done. case_decide as Hmode.
  - destruct (serial_branch_run (total_in_effect itrs total) itrs args kw s)
      as (new & -> & _). by exists new.
  - destruct (decide (Z.min (total_in_effect itrs total) (ncpu (self s)) < 1))
      as [Hn|Hn].
    + rewrite parallel_branch_refused by done. by eexists.
    + apply Z.nlt_ge in Hn.
      destruct (parallel_branch_run (total_in_effect itrs total) _
                  itrs args kw oracle s Hn) as (new & -> & _).
      by exists new.
Qed.

(** A failure in the parallel branch skips the assignment that resets
    the stored function: the keywords stay bound to it. *)
Lemma parallel_failure_keeps_binding itrs args total kw oracle s e :
  (total = None → has_len itrs = true) →
  1 < Z.min (total_in_effect itrs total) (ncpu (self s)) →
  kw ≠ ∅ →
  (__call__ itrs args total kw oracle s).1 = Err e →
  func (self (__call__ itrs args total kw oracle s).2)
  = Partial (func (self s)) kw.
Proof.
  intros Hlen Hn Hkw. rewrite call_sized, decide_False by (done || lia).
  apply Z.lt_le_incl in Hn.
  destruct (parallel_branch_run (total_in_effect itrs total) _
              itrs args kw oracle s Hn) as (new & -> & _).
  simpl. intros ->. simpl. unfold bound_func. by rewrite decide_False.
Qed.

End Call.

(** ** Construction: the worker count *)

Section Construction.
Context {V E : Type}.
Implicit Types (this : @Pool V E) (f : @callable V E).

(** The resolved count never exceeds the ceiling [P - L // P]. *)
Lemma init_upper_bound (P L : Z) f (req : option Z) (d : string) this :
  __init__ P L f req d = Ok this → ncpu this ≤ P - L `div` P.
Proof.
  unfold __init__. case_decide; [done|]. intros [= <-]. simpl.
  destruct req as [n|]; [case_decide|]; lia.
Qed.

(** It is at least 1 as soon as the ceiling is. *)
Lemma init_lower_bound (P L : Z) f (req : option Z) (d : string) this :
  __init__ P L f req d = Ok this → 1 ≤ P - L `div` P → 1 ≤ ncpu this.
Proof.
  unfold __init__. case_decide; [done|]. intros [= <-] Hmax. simpl.
  destruct req as [n|]; [case_decide|]; lia.
Qed.

(** A host without physical cores makes the division raise. *)
Lemma init_no_core (L : Z) f (req : option Z) (d : string) :
  __init__ 0 L f req d = Err ZeroDivisionError.
Proof. done. Qed.

(** C4: on a host reporting [P] physical and [L] logical cores,
    construction succeeds whatever count is requested and stores
    [P - L // P] for an unset or non-positive request and
    [min (max n 1) (P - L // P)] for a request [n]; with 4 physical and 8
    logical cores an unset request, a request of 100 and a request of 0
    or less all give 2. *)
Theorem init_resolves_worker_count (P L : Z) f (req : option Z) (d : string) :
  P ≠ 0 →
  ∃ this,
    __init__ P L f req d = Ok this ∧ func this = f ∧ desc this = d ∧
    let maxSafeWorkers := P - L `div` P in
    (req = None → ncpu this = maxSafeWorkers) ∧
    (∀ n, req = Some n → n ≤ 0 → ncpu this = maxSafeWorkers) ∧
    (∀ n, req = Some n → 0 < n →
          ncpu this = Z.min (Z.max n 1) maxSafeWorkers) ∧
    (P = 4 → L = 8 →
     req = None ∨ req = Some 100 ∨ (∃ n, req = Some n ∧ n ≤ 0) →
     ncpu this = 2).
Proof.
  intros HP. unfold __init__. rewrite decide_False by done.
  eexists. split; [done|]. simpl. do 2 (split; [done|]).
  repeat split.
  - by intros ->.
  - intros n -> Hn. by rewrite decide_True.
  - intros n -> Hn. by rewrite decide_False by lia.
  - intros -> -> [->|[->|(n & -> & Hn)]]; [done..|].
    by rewrite decide_True.
Qed.

End Construction.

(** C5: on a host with two physical cores and two threads per core the
    ceiling [P - L // P] is 0 and so is the stored count, below the bound
    of one worker; every call on such a pool then asks for a worker set
    of no process. *)
Theorem two_core_host_gets_no_worker :
  ∃ this : @Pool Z string,
    __init__ 2 4 (Func shift) None "shift" = Ok this ∧
    ncpu this = 0 ∧ 2 - 4 `div` 2 = 0 ∧
    ¬ (1 ≤ ncpu this ≤ 2 - 4 `div` 2) ∧
    (__call__ five [] None ∅ [] (fresh this)).1 = Err ValueError_processes.
Proof.
  exists (mkPool 0 "shift" (Func shift)). split; [reflexivity|].
  split; [done|]. split; [done|]. split; [simpl; lia|]. by vm_compute.
Qed.

(** ** Invocation *)

Section Invocation.
Context {V E : Type}.
Implicit Types (s : @state V E) (c : @callable V E) (this : @Pool V E).
Implicit Types (kw kwargs : gmap string V) (args : list V).
Implicit Types (itrs : @iterable V) (tr new : list (@event V E)).

(** C1: when the effective worker count is 1, a call on the items [xs]
    with a function [f] that always returns gives exactly the list of
    the values of [f] on [x], the shared arguments and the keywords, for
    [x] in [xs], in the order of [xs]. *)
Theorem serial_call_returns_results
    (f : list V → gmap string V → V) itrs args total kw oracle s :
  (total = None → has_len itrs = true) →
  Z.min (total_in_effect itrs total) (ncpu (self s)) = 1 →
  func (self s) = Func (λ a k, inl (f a k)) →
  (__call__ itrs args total kw oracle s).1
  = Ok ((λ x, f (x :: args) kw) <$> elems itrs).
Proof.
  intros Hlen Hn Hf. rewrite call_result by (done || lia).
  rewrite Hf. unfold outcomes. simpl.
  apply (gather_values (λ x, f (x :: args) kw) (elems itrs) []).
Qed.

(** C2: when the effective worker count exceeds 1 (more than one item
    for more than one worker) the call, which then takes the parallel
    branch, returns what the serial branch returns on the same pool,
    items, shared arguments and keywords, whatever the order in which
    the workers finish. *)
Theorem parallel_call_matches_serial itrs args total kw oracle s :
  (total = None → has_len itrs = true) →
  1 < Z.min (total_in_effect itrs total) (ncpu (self s)) →
  (__call__ itrs args total kw oracle s).1
  = (serial_branch (total_in_effect itrs total) itrs args kw s).1.
Proof.
  intros Hlen Hn. rewrite call_result by (done || lia).
  by destruct (serial_branch_run (total_in_effect itrs total) itrs args kw s)
    as (new & -> & _).
Qed.

(** C8, as the code has it: a call on inputs without a length and
    without an explicit total raises the error of [len] with nothing
    done: no notice, no call of the function, no worker set, the pool
    and the trace untouched.  That error is the builtin [TypeError], not
    an error of a class of its own: an exception of that class raised by
    the function on an item has the same class. *)
Theorem unsized_inputs_fail_before_work
    (class_of : E → string) itrs args kw oracle s :
  has_len itrs = false →
  __call__ itrs args None kw oracle s = (Err TypeError_len, s)
  ∧ exc_class class_of TypeError_len = "TypeError"%string
  ∧ ∀ e : E, class_of e = "TypeError"%string →
      exc_class class_of (Raised e) = exc_class class_of TypeError_len.
Proof.
  intros Hlen. split; [by apply call_unsized|]. split; [done|].
  by intros e He.
Qed.

(** C9, as the code has it: a call that returns has advanced the
    progress bar once per item of the inputs; that number is the total
    when the total is omitted or given as the number of items. *)
Theorem ticks_equal_item_count itrs args total kw oracle s r s' :
  __call__ itrs args total kw oracle s = (Ok r, s') →
  ticks (trace s') = (ticks (trace s) + length (elems itrs))%nat
  ∧ (total = None ∨ total = Some (Z.of_nat (length (elems itrs))) →
     Z.of_nat (ticks (trace s') - ticks (trace s))
     = total_in_effect itrs total).
Proof.
  intros Hcall.
  destruct (call_run itrs args total kw oracle s)
    as (new & Htrace & _ & _ & _ & Hok).
  rewrite Hcall in Htrace, Hok. simpl in *.
  destruct (Hok r eq_refl) as [_ Hticks].
  rewrite Htrace, ticks_app, Hticks. split; [done|].
  unfold total_in_effect. intros [->| ->]; simpl; lia.
Qed.

(** C10: a call changes neither the worker count nor the description of
    the pool, and it assigns the stored function only in the parallel
    branch with a non-empty keyword dictionary: in the serial branch, and
    with no keyword, no assignment is made at any point of the call and
    the stored function is the same afterwards. *)
Theorem call_frame itrs args total kw oracle s :
  let s' := (__call__ itrs args total kw oracle s).2 in
  ncpu (self s') = ncpu (self s) ∧ desc (self s') = desc (self s) ∧
  ∃ new, trace s' = trace s ++ new ∧
    (Z.min (total_in_effect itrs total) (ncpu (self s)) = 1 ∨ kw = ∅ →
     (∀ c, SetFunc c ∉ new) ∧ func (self s') = func (self s)) ∧
    (∀ c, SetFunc c ∈ new →
     Z.min (total_in_effect itrs total) (ncpu (self s)) ≠ 1 ∧ kw ≠ ∅).
Proof.
  destruct (call_run itrs args total kw oracle s)
    as (new & Htrace & Hncpu & Hdesc & Hquiet & _).
  simpl. do 2 (split; [done|]). exists new. split; [done|]. split.
  - intros Hcase. destruct (Hquiet Hcase) as [Hq ->]. by split.
  - intros c Hc. split.
    + intros Hone. destruct Hquiet as [Hq _]; [by left|]. by eapply Hq.
    + intros Hkw. destruct Hquiet as [Hq _]; [by right|]. by eapply Hq.
Qed.

End Invocation.

(** ** The sample pools *)

Lemma serial_call_returns_results_witness :
  (__call__ five [] None offset100 [] (fresh single_pool)).1
  = Ok [101; 102; 103; 104; 105].
Proof.
  apply (serial_call_returns_results shift_all five [] None offset100 []
           (fresh single_pool)); [done|reflexivity|reflexivity].
Defined.

Lemma parallel_call_matches_serial_witness :
  (__call__ five [] None offset100 [1; 0; 1]%nat (fresh double_pool)).1
  = (serial_branch 5 five [] offset100 (fresh double_pool)).1.
Proof.
  apply (parallel_call_matches_serial five [] None offset100 [1; 0; 1]%nat
           (fresh double_pool)); [done|reflexivity].
Defined.

Lemma init_resolves_worker_count_witness :
  ∃ this : @Pool Z string,
    __init__ 4 8 (Func shift) (Some 100) "shift" = Ok this ∧ ncpu this = 2.
Proof.
  destruct (init_resolves_worker_count (V:=Z) (E:=string)
              4 8 (Func shift) (Some 100) "shift")
    as (this & Hinit & _ & _ & _ & _ & _ & Hfour); [done|].
  exists this. split; [exact Hinit|]. apply Hfour; auto.
Defined.

Lemma unsized_inputs_fail_before_work_witness :
  __call__ pair_generator [] None offset100 [] (fresh shift_pool)
  = (Err TypeError_len, fresh shift_pool)
  ∧ exc_class shift_class (@TypeError_len string) = "TypeError"%string
  ∧ ∀ e : string, shift_class e = "TypeError"%string →
      exc_class shift_class (Raised e)
      = exc_class shift_class (@TypeError_len string).
Proof.
  apply (unsized_inputs_fail_before_work shift_class pair_generator []
           offset100 [] (fresh shift_pool)); reflexivity.
Defined.

(** C8 as stated fails: the error raised for a generator without a total
    and the error raised when [shift] refuses an item of a list are both
    [TypeError]s; the class of the first does not set it apart from the
    second. *)
Lemma sizing_error_has_class_of_item_error :
  (__call__ pair_generator [] None ∅ [] (fresh shift_pool)).1
  = Err TypeError_len
  ∧ (__call__ five [] None ∅ [] (fresh shift_pool)).1
    = Err (Raised "bad item"%string)
  ∧ exc_class shift_class (@TypeError_len string)
    = exc_class shift_class (Raised "bad item"%string).
Proof. repeat split; by vm_compute. Qed.

Lemma ticks_equal_item_count_witness :
  ticks (trace (__call__ five [] None offset100 [1; 0; 1]%nat
                  (fresh double_pool)).2) = 5%nat.
Proof.
  apply (ticks_equal_item_count five [] None offset100 [1; 0; 1]%nat
           (fresh double_pool) [101; 102; 103; 104; 105]
           (__call__ five [] None offset100 [1; 0; 1]%nat
              (fresh double_pool)).2).
  vm_compute. reflexivity.
Defined.

(** C9 as stated fails: with a total of 3 given for five items, the call
    returns and the bar has advanced five times, not three, in the serial
    branch (one worker) as in the parallel one (two workers). *)
Lemma ticks_differ_from_given_total :
  total_in_effect five (Some 3) = 3
  ∧ (__call__ five [] (Some 3) ∅ [] (fresh single_pool)).1
    = Ok [1; 2; 3; 4; 5]
  ∧ ticks (trace (__call__ five [] (Some 3) ∅ [] (fresh single_pool)).2)
    = 5%nat
  ∧ (__call__ five [] (Some 3) ∅ [1; 0; 1]%nat (fresh double_pool)).1
    = Ok [1; 2; 3; 4; 5]
  ∧ ticks (trace (__call__ five [] (Some 3) ∅ [1; 0; 1]%nat
                    (fresh double_pool)).2)
    = 5%nat
  ∧ Z.of_nat 5 ≠ total_in_effect five (Some 3).
Proof. repeat split; by vm_compute. Qed.

(** C3: [shift] refuses the third of five items while two workers run
    with the keyword [offset]; the call raises, and the pool is left with
    the keyword-bound wrapper as its stored function instead of the
    function it held before the call. *)
Theorem kwargs_binding_survives_failure :
  (__call__ five [] None offset100 [] (fresh shift_pool)).1
  = Err (Raised "bad item"%string)
  ∧ func (self (__call__ five [] None offset100 [] (fresh shift_pool)).2)
    = Partial (Func shift) offset100
  ∧ func (self (__call__ five [] None offset100 [] (fresh shift_pool)).2)
    ≠ func shift_pool.
Proof.
  assert (func (self (__call__ five [] None offset100 [] (fresh shift_pool)).2)
          = Partial (Func shift) offset100) as Hleft
    by (apply (parallel_failure_keeps_binding five [] None offset100 []
                 (fresh shift_pool) (Raised "bad item"%string));
        [done|reflexivity|apply insert_non_empty|by vm_compute]).
  split; [by vm_compute|]. split; [done|]. by rewrite Hleft.
Qed.

(** C6: on an empty list the effective count is [min 0 2 = 0], not
    greater than 1, and the call still takes the parallel branch: it
    logs the parallel notice and fails on the creation of a worker set
    of no process. *)
Theorem empty_batch_takes_parallel_branch :
  Z.min (total_in_effect nothing None) (ncpu shift_pool) = 0
  ∧ __call__ nothing [] None ∅ [] (fresh shift_pool)
    = (Err ValueError_processes, mkState shift_pool [LogParallel 0 0]).
Proof. split; [done|]. vm_compute. reflexivity. Qed.

(** C7: after the failing call of C3 the pool does not work as before:
    a call without keywords on the items 1 and 2, which a fresh pool
    answers with 1 and 2, is answered with 101 and 102, the offset of
    the failed call still applied. *)
Theorem later_call_runs_with_stale_kwargs :
  (__call__ five [] None offset100 [] (fresh shift_pool)).1
  = Err (Raised "bad item"%string)
  ∧ (__call__ two [] None ∅ [] (fresh shift_pool)).1
    = Ok [1; 2]
  ∧ (__call__ two [] None ∅ []
       (__call__ five [] None offset100 [] (fresh shift_pool)).2).1
    = Ok [101; 102].
Proof. repeat split; by vm_compute. Qed.

(** * Further properties *)

(** ** The exact traces of the two branches *)

Section Exact.
Context {V E : Type}.
Implicit Types (s : @state V E) (c : @callable V E) (this : @Pool V E).
Implicit Types (kw kwargs : gmap string V) (args : list V).
Implicit Types (itrs : @iterable V) (tr new : list (@event V E)).

Lemma collect_exact (ready : list (V + E)) : ∀ acc s,
  collect ready acc s =
    (gather ready acc,
     mkState (self s) (trace s ++ replicate (leading ready) Tick)).
Proof.
  induction ready as [|[v|e] ready IH]; intros acc s.
  - simpl. by rewrite app_nil_r, state_eta.
  - cbn. run. rewrite IH. simpl. by rewrite <- app_assoc.
  - simpl. unfold raise. by rewrite app_nil_r, state_eta.
Qed.

Lemma serial_loop_exact args kw (its : list V) : ∀ acc s,
  serial_loop args kw its acc s =
    (gather (outcomes (func (self s)) args kw its) acc,
     mkState (self s) (trace s ++ serial_events (func (self s)) args kw its)).
Proof.
  induction its as [|i its IH]; intros acc s.
  - simpl. by rewrite app_nil_r, state_eta.
  - cbn. run. destruct (apply (func (self s)) (i :: args) kw) as [v|e]; run.
    + rewrite IH. simpl. by rewrite <- !app_assoc.
    + done.
Qed.

Lemma serial_branch_exact t itrs args kw s :
  serial_branch t itrs args kw s =
    (gather (outcomes (func (self s)) args kw (elems itrs)) [],
     mkState (self s)
       (trace s ++ LogSerial :: BarOpen t (desc (self s)) ::
          serial_events (func (self s)) args kw (elems itrs))).
Proof.
  unfold serial_branch. run. rewrite serial_loop_exact. simpl.
  by rewrite <- !app_assoc.
Qed.

Lemma parallel_branch_exact t n itrs args kw oracle s :
  1 ≤ n →
  parallel_branch t n itrs args kw oracle s =
    (gather (outcomes (func (self s)) args kw (elems itrs)) [],
     mkState
       (match gather (outcomes (func (self s)) args kw (elems itrs)) [] with
        | Ok _ => self s
        | Err _ => with_func (self s) (bound_func (func (self s)) kw)
        end)
       (trace s ++ parallel_events t n (self s) kw
                     (outcomes (func (self s)) args kw (elems itrs)))).
Proof.
  intros Hn.
  pose proof (worker_outcomes (self s) args kw (elems itrs)) as Hw.
  pose proof (imap_items (Z.to_nat n) oracle
                (__worker__ (with_func (self s) (bound_func (func (self s)) kw)))
                (__zip__ (elems itrs) args) ltac:(lia)) as Hitems.
  rewrite Hw in Hitems. clear Hw.
  unfold parallel_branch, parallel_events, with_Pool, on_exit, bound_func in *.
  rewrite (decide_False (P := n < 1)) by lia.
  destruct (decide (kw = ∅)) as [Hkw|Hkw].
  all: run.
  all: rewrite ?with_func_same in Hitems; unfold with_func in Hitems.
  all: rewrite Hitems, collect_exact; simpl.
  all: destruct (gather _ []) as [r|e]; cbn.
  all: apply run_eq; [by destruct (self s)|].
  all: by repeat (rewrite <- app_assoc; simpl).
Qed.

(** The call is its schedule-free description, whatever the oracle. *)
Lemma call_exact itrs args total kw oracle s :
  __call__ itrs args total kw oracle s = call_outcome itrs args total kw s.
Proof.
  unfold call_outcome. case_decide as Hsz.
  { destruct Hsz as [-> Hlen]. by apply call_unsized. }
  rewrite call_sized
    by (intros ->; destruct (has_len itrs); [done|by destruct Hsz]).
  case_decide; [apply serial_branch_exact|].
  case_decide; [by apply parallel_branch_refused|].
  apply parallel_branch_exact. lia.
Qed.

Lemma leading_values (vs : list V) (rest : list (V + E)) :
  leading ((inl <$> vs) ++ rest) = (length vs + leading rest)%nat.
Proof. induction vs as [|v vs IH]; [done|]. simpl. f_equal. exact IH. Qed.

Lemma leading_outcomes_le c args kw (its : list V) :
  (leading (outcomes c args kw its) ≤ length its)%nat.
Proof.
  induction its as [|i its IH]; simpl; [done|].
  destruct (apply c (i :: args) kw); simpl; lia.
Qed.

Lemma gather_Ok_inv (outs : list (V + E)) : ∀ acc r,
  gather outs acc = Ok r → ∃ vs, outs = inl <$> vs ∧ r = acc ++ vs.
Proof.
  induction outs as [|[v|e] outs IH]; intros acc r; simpl.
  - intros [= <-]. exists []. by rewrite app_nil_r.
  - intros (vs & -> & ->)%IH. exists (v :: vs). by rewrite <- app_assoc.
  - done.
Qed.

Lemma ticks_replicate (n : nat) : ticks (replicate n (@Tick V E)) = n.
Proof.
  induction n as [|n IH]; [done|]. unfold ticks in *. simpl. by rewrite IH.
Qed.

Lemma ticks_serial_events c args kw (its : list V) :
  ticks (serial_events c args kw its) = leading (outcomes c args kw its).
Proof.
  induction its as [|i its IH]; [done|]. simpl.
  destruct (apply c (i :: args) kw); [|done].
  unfold ticks in *. simpl. by rewrite IH.
Qed.

Lemma ticks_parallel_events t n this kw (outs : list (V + E)) :
  ticks (parallel_events t n this kw outs) = leading outs.
Proof.
  unfold parallel_events.
  change (LogParallel t n :: ?l) with ([LogParallel t n] ++ l).
  rewrite !ticks_app, ticks_replicate.
  destruct (gather outs []); repeat case_decide; unfold ticks; simpl; lia.
Qed.

Lemma calls_app tr1 tr2 : calls (tr1 ++ tr2) = calls tr1 ++ calls tr2.
Proof.
  induction tr1 as [|ev tr1 IH]; [done|]. destruct ev; simpl; by rewrite ?IH.
Qed.

Lemma opened_app tr1 tr2 : opened (tr1 ++ tr2) = (opened tr1 + opened tr2)%nat.
Proof.
  induction tr1 as [|ev tr1 IH]; [done|]. destruct ev; simpl; by rewrite ?IH.
Qed.

Lemma closed_app tr1 tr2 : closed (tr1 ++ tr2) = (closed tr1 + closed tr2)%nat.
Proof.
  induction tr1 as [|ev tr1 IH]; [done|]. destruct ev; simpl; by rewrite ?IH.
Qed.

End Exact.

(** ** Construction: more on the worker count *)

Section Requests.
Context {V E : Type}.
Implicit Types (this : @Pool V E) (f : @callable V E).

(** X1: a request between 1 and the ceiling [P - L // P] is stored as
    it is. *)
Theorem init_honours_request_in_range
    (P L : Z) f (n : Z) (d : string) :
  P ≠ 0 → 1 ≤ n ≤ P - L `div` P →
  __init__ P L f (Some n) d = Ok (mkPool n d f).
Proof.
  intros HP Hn. unfold __init__.
  rewrite decide_False by done. rewrite decide_False by lia.
  do 2 f_equal. lia.
Qed.

(** X2: the stored count never exceeds the ceiling, is at least 1
    exactly when the ceiling is, and never exceeds a positive
    request. *)
Theorem init_count_bounds (P L : Z) f (req : option Z) (d : string) this :
  __init__ P L f req d = Ok this →
  ncpu this ≤ P - L `div` P
  ∧ (1 ≤ ncpu this ↔ 1 ≤ P - L `div` P)
  ∧ (∀ n, req = Some n → 0 < n → ncpu this ≤ n).
Proof.
  unfold __init__. case_decide; [done|]. intros [= <-]. simpl.
  destruct req as [n|]; [case_decide|]; repeat split; try lia.
  all: intros m [= <-]; lia.
Qed.

(** X3: resolving is idempotent: a pool built with the count of an
    existing pool as its request gets the same count. *)
Theorem init_idempotent (P L : Z) f (req : option Z) (d : string) this :
  __init__ P L f req d = Ok this →
  __init__ P L f (Some (ncpu this)) d = Ok this.
Proof.
  unfold __init__. case_decide; [done|]. intros [= <-]. simpl.
  do 2 f_equal.
  destruct req as [n|]; repeat case_decide; lia.
Qed.

(** X4: on a host with [k] threads on each of its [P] cores the default
    count is [P - k]; without hyperthreading ([k = 1]) it leaves one
    core unused. *)
Theorem init_default_leaves_one_group (P k : Z) f (d : string) :
  0 < P →
  __init__ P (k * P) f None d = Ok (mkPool (P - k) d f)
  ∧ __init__ P P f None d = Ok (mkPool (P - 1) d f).
Proof.
  intros HP. unfold __init__.
  split; rewrite decide_False by lia; simpl.
  - rewrite Z.div_mul by lia. reflexivity.
  - rewrite Z.div_same by lia. reflexivity.
Qed.

(** X5: the default is the largest count a host gives: no request
    resolves to more workers than an unset one, and among positive
    requests a larger one never resolves to fewer workers. *)
Theorem init_default_is_maximum
    (P L : Z) f (req : option Z) (d : string) this dflt :
  __init__ P L f req d = Ok this →
  __init__ P L f None d = Ok dflt →
  ncpu this ≤ ncpu dflt
  ∧ (∀ n m bigger, req = Some n → 0 < n ≤ m →
       __init__ P L f (Some m) d = Ok bigger → ncpu this ≤ ncpu bigger).
Proof.
  unfold __init__. case_decide; [done|]. intros [= <-] [= <-]. simpl.
  split.
  - destruct req as [n|]; [case_decide|]; lia.
  - intros n m bigger -> Hnm [= <-]. simpl.
    rewrite !decide_False by lia. lia.
Qed.

End Requests.

(** ** Invocation: results, failures and the state left behind *)

Section Outcomes.
Context {V E : Type}.
Implicit Types (s : @state V E) (c : @callable V E) (this : @Pool V E).
Implicit Types (kw kwargs : gmap string V) (args : list V).
Implicit Types (itrs : @iterable V) (tr new : list (@event V E)).

Lemma call_outcome_result_self itrs args total kw s1 s2 :
  self s1 = self s2 →
  (call_outcome itrs args total kw s1).1
  = (call_outcome itrs args total kw s2).1.
Proof.
  intros Hself. unfold call_outcome. rewrite Hself.
  by repeat case_decide.
Qed.

Lemma Partial_neq c kw : Partial c kw ≠ c.
Proof.
  revert kw. induction c as [f|c IH kw']; intros kw; [done|].
  intros [= Hc _]. by apply IH in Hc.
Qed.

Lemma calls_serial_events c args kw (its : list V) :
  calls (serial_events c args kw its)
  = (λ x, (x :: args, kw)) <$> take (S (leading (outcomes c args kw its))) its.
Proof.
  induction its as [|i its IH]; [done|]. simpl.
  destruct (apply c (i :: args) kw); simpl; [by rewrite IH|].
  by destruct its.
Qed.

Lemma calls_replicate_tick (n : nat) : calls (replicate n (@Tick V E)) = [].
Proof. by induction n. Qed.

Lemma calls_parallel_events t n this kw (outs : list (V + E)) :
  calls (parallel_events t n this kw outs) = [].
Proof.
  unfold parallel_events.
  change (LogParallel t n :: ?l) with ([LogParallel t n] ++ l).
  rewrite !calls_app, calls_replicate_tick.
  destruct (gather outs []); by repeat case_decide.
Qed.

(** X6: what a call returns, the pool it leaves and the trace of the
    calling process are the same for any two schedulings of the
    workers. *)
Theorem call_schedule_irrelevant itrs args total kw oracle1 oracle2 s :
  __call__ itrs args total kw oracle1 s
  = __call__ itrs args total kw oracle2 s.
Proof. by rewrite !call_exact. Qed.

(** X7: the list a call returns has one entry per item, and its entry
    [i] is the value of the function on item [i], the shared arguments
    and the keywords, in the serial branch as in the parallel one. *)
Theorem call_results_align itrs args total kw oracle s r s' :
  __call__ itrs args total kw oracle s = (Ok r, s') →
  length r = length (elems itrs)
  ∧ ∀ i x, elems itrs !! i = Some x →
      ∃ v, r !! i = Some v
           ∧ apply (func (self s)) (x :: args) kw = inl v.
Proof.
  rewrite call_exact. unfold call_outcome.
  assert (gather (outcomes (func (self s)) args kw (elems itrs)) [] = Ok r →
          length r = length (elems itrs)
          ∧ ∀ i x, elems itrs !! i = Some x →
              ∃ v, r !! i = Some v
                   ∧ apply (func (self s)) (x :: args) kw = inl v) as Hgather.
  { intros (vs & Houts & ->)%gather_Ok_inv. simpl. split.
    - apply (f_equal length) in Houts. unfold outcomes in Houts.
      by rewrite !length_fmap in Houts.
    - intros i x Hx. apply (f_equal (.!! i)) in Houts.
      unfold outcomes in Houts. rewrite !list_lookup_fmap, Hx in Houts.
      simpl in Houts. destruct (vs !! i) as [v|]; [|done].
      exists v. split; [done|]. by injection Houts. }
  repeat case_decide; intros [= Hr _]; by apply Hgather.
Qed.

(** X8: when the function returns on the first items and raises [e] on
    the next one, the call raises [e], in the serial branch as in the
    parallel one, and the progress bar has advanced once for each of the
    items before it. *)
Theorem call_first_failure itrs args total kw oracle s vs e rest :
  (total = None → has_len itrs = true) →
  1 ≤ Z.min (total_in_effect itrs total) (ncpu (self s)) →
  outcomes (func (self s)) args kw (elems itrs)
  = (inl <$> vs) ++ inr e :: rest →
  (__call__ itrs args total kw oracle s).1 = Err (Raised e)
  ∧ ticks (trace (__call__ itrs args total kw oracle s).2)
    = (ticks (trace s) + length vs)%nat.
Proof.
  intros Hlen Hn Houts. rewrite call_exact. unfold call_outcome.
  rewrite decide_False
    by (intros [-> Hno]; rewrite Hlen in Hno; done).
  assert (leading (outcomes (func (self s)) args kw (elems itrs))
          = length vs) as Hlead
    by (rewrite Houts, leading_values; simpl; lia).
  case_decide; [|rewrite decide_False by lia]; simpl.
  - split; [rewrite Houts; apply gather_failure|].
    rewrite ticks_app. f_equal.
    change (LogSerial :: BarOpen ?t ?d :: ?l)
      with ([LogSerial; BarOpen t d] ++ l).
    by rewrite ticks_app, ticks_serial_events, Hlead.
  - split; [rewrite Houts; apply gather_failure|].
    by rewrite ticks_app, ticks_parallel_events, Hlead.
Qed.

(** X9: the only calls that change the pool object are the calls that
    reach the parallel branch, are given keywords and raise; such a call
    does change it: it leaves the function wrapped with its keywords. *)
Theorem call_pool_changes_only_on_parallel_failure
    itrs args total kw oracle s :
  ((total = None → has_len itrs = true)
   ∧ Z.min (total_in_effect itrs total) (ncpu (self s)) ≠ 1
   ∧ kw ≠ ∅
   ∧ (∃ e, (__call__ itrs args total kw oracle s).1 = Err e) →
   self (__call__ itrs args total kw oracle s).2
   = with_func (self s) (Partial (func (self s)) kw)
   ∧ self (__call__ itrs args total kw oracle s).2 ≠ self s)
  ∧ (self (__call__ itrs args total kw oracle s).2 = self s
     ∨ ((total = None → has_len itrs = true)
        ∧ Z.min (total_in_effect itrs total) (ncpu (self s)) ≠ 1
        ∧ kw ≠ ∅
        ∧ (∃ e, (__call__ itrs args total kw oracle s).1 = Err e))).
Proof.
  rewrite call_exact. unfold call_outcome, bound_func. split.
  - intros (Hlen & Hn & Hkw & e & He).
    assert (self (call_outcome itrs args total kw s).2
            = with_func (self s) (Partial (func (self s)) kw)) as Hwrap.
    { revert He. unfold call_outcome, bound_func.
      rewrite decide_False
        by (intros [-> Hno]; rewrite Hlen in Hno; done).
      rewrite (decide_False (P := _ = 1)) by done.
      rewrite (decide_False (P := kw = ∅)) by done.
      case_decide; simpl; [done|]. by intros ->. }
    unfold call_outcome, bound_func in Hwrap. split; [done|].
    rewrite Hwrap. unfold with_func. destruct (self s) as [n d c]. simpl.
    intros [= Hc]. by apply Partial_neq in Hc.
  - destruct (decide (kw = ∅)) as [Hkw|Hkw].
    + left. repeat case_decide; simpl; try done.
      all: try destruct (gather _ _); by rewrite ?with_func_same.
    + case_decide as Hsz; [by left|].
      assert (total = None → has_len itrs = true) as Hlen
        by (intros ->; destruct (has_len itrs); [done|by destruct Hsz]).
      repeat case_decide; simpl; try by left.
      * right. eauto 10.
      * destruct (gather _ _); [by left|]. right. eauto 10.
Qed.

(** X10: keywords do not outlive a call that returns: any later call
    then returns what it would have returned on the pool as it was
    before. *)
Theorem kwargs_do_not_persist_after_success
    itrs args total kw oracle s r s'
    itrs2 args2 total2 kw2 oracle2 :
  __call__ itrs args total kw oracle s = (Ok r, s') →
  (__call__ itrs2 args2 total2 kw2 oracle2 s').1
  = (__call__ itrs2 args2 total2 kw2 oracle2 s).1.
Proof.
  intros Hcall. rewrite !call_exact. apply call_outcome_result_self.
  by apply (call_ok_pool_unchanged itrs args total kw oracle s r s').
Qed.

End Outcomes.

(** ** Invocation: branches, worker sets and calls *)

Section Branches.
Context {V E : Type}.
Implicit Types (s : @state V E) (c : @callable V E) (this : @Pool V E).
Implicit Types (kw kwargs : gmap string V) (args : list V).
Implicit Types (itrs : @iterable V) (tr new : list (@event V E)).

Lemma opened_replicate_tick (n : nat) :
  opened (replicate n (@Tick V E)) = 0%nat.
Proof. by induction n. Qed.

Lemma closed_replicate_tick (n : nat) :
  closed (replicate n (@Tick V E)) = 0%nat.
Proof. by induction n. Qed.

Lemma opened_serial_events c args kw (its : list V) :
  opened (serial_events c args kw its) = 0%nat.
Proof.
  induction its as [|i its IH]; [done|]. simpl.
  by destruct (apply c (i :: args) kw).
Qed.

Lemma closed_serial_events c args kw (its : list V) :
  closed (serial_events c args kw its) = 0%nat.
Proof.
  induction its as [|i its IH]; [done|]. simpl.
  by destruct (apply c (i :: args) kw).
Qed.

Lemma opened_parallel_events t n this kw (outs : list (V + E)) :
  opened (parallel_events t n this kw outs) = 1%nat.
Proof.
  unfold parallel_events.
  change (LogParallel t n :: ?l) with ([LogParallel t n] ++ l).
  rewrite !opened_app, opened_replicate_tick.
  destruct (gather outs []); by repeat case_decide.
Qed.

Lemma closed_parallel_events t n this kw (outs : list (V + E)) :
  closed (parallel_events t n this kw outs) = 1%nat.
Proof.
  unfold parallel_events.
  change (LogParallel t n :: ?l) with ([LogParallel t n] ++ l).
  rewrite !closed_app, closed_replicate_tick.
  destruct (gather outs []); by repeat case_decide.
Qed.

(** X11: a call whose effective count is below 1 raises the error of
    the worker-set constructor, whatever the items and the function:
    the function is not called, no worker set is created and the
    progress bar does not move. *)
Theorem call_refused_without_worker itrs args total kw oracle s :
  (total = None → has_len itrs = true) →
  Z.min (total_in_effect itrs total) (ncpu (self s)) < 1 →
  (__call__ itrs args total kw oracle s).1 = Err ValueError_processes
  ∧ calls (trace (__call__ itrs args total kw oracle s).2) = calls (trace s)
  ∧ opened (trace (__call__ itrs args total kw oracle s).2)
    = opened (trace s)
  ∧ ticks (trace (__call__ itrs args total kw oracle s).2)
    = ticks (trace s).
Proof.
  intros Hlen Hn. rewrite call_exact. unfold call_outcome.
  rewrite decide_False
    by (intros [-> Hno]; rewrite Hlen in Hno; done).
  rewrite decide_False by lia. rewrite decide_True by done. simpl.
  rewrite calls_app, opened_app, ticks_app.
  case_decide; simpl; unfold ticks; simpl.
  all: by rewrite app_nil_r, !Nat.add_0_r.
Qed.

(** X12: called on an empty list, with the total left out, every pool
    raises the error of the worker-set constructor; no empty result
    list is returned. *)
Theorem empty_input_is_refused itrs args kw oracle s :
  elems itrs = [] → has_len itrs = true →
  (__call__ itrs args None kw oracle s).1 = Err ValueError_processes.
Proof.
  intros Hnil Hlen. rewrite call_exact. unfold call_outcome, total_in_effect.
  rewrite Hnil. simpl.
  rewrite decide_False by (intros [_ Hno]; rewrite Hlen in Hno; done).
  rewrite decide_False by lia. by rewrite decide_True by lia.
Qed.

(** X13: a call creates at most one worker set and terminates every one
    it creates, also when the function raises; the serial branch creates
    none. *)
Theorem worker_set_always_terminated itrs args total kw oracle s :
  ∃ k : nat,
    (k ≤ 1)%nat
    ∧ opened (trace (__call__ itrs args total kw oracle s).2)
      = (opened (trace s) + k)%nat
    ∧ closed (trace (__call__ itrs args total kw oracle s).2)
      = (closed (trace s) + k)%nat
    ∧ (Z.min (total_in_effect itrs total) (ncpu (self s)) = 1 → k = 0%nat).
Proof.
  rewrite call_exact. unfold call_outcome.
  pose proof (opened_parallel_events (total_in_effect itrs total)
                (Z.min (total_in_effect itrs total) (ncpu (self s)))
                (self s) kw
                (outcomes (func (self s)) args kw (elems itrs))) as Hopen.
  pose proof (closed_parallel_events (total_in_effect itrs total)
                (Z.min (total_in_effect itrs total) (ncpu (self s)))
                (self s) kw
                (outcomes (func (self s)) args kw (elems itrs))) as Hclose.
  set (pe := parallel_events _ _ _ _ _) in *.
  case_decide; [exists 0%nat; simpl; repeat split; lia|].
  case_decide as Hone.
  { exists 0%nat. simpl. rewrite opened_app, closed_app. simpl.
    rewrite opened_serial_events, closed_serial_events.
    repeat split; lia. }
  case_decide.
  { exists 0%nat. simpl. rewrite opened_app, closed_app.
    case_decide; simpl; repeat split; lia. }
  exists 1%nat. simpl. rewrite opened_app, closed_app, Hopen, Hclose.
  repeat split; lia.
Qed.

(** X14: in the serial branch the function is called once per item, on
    the item followed by the shared arguments and with the keywords, in
    the order of the items and up to the first item it refuses; in the
    parallel branch the calling process makes no call itself. *)
Theorem serial_calls_in_order itrs args total kw oracle s :
  (total = None → has_len itrs = true) →
  (Z.min (total_in_effect itrs total) (ncpu (self s)) = 1 →
   calls (trace (__call__ itrs args total kw oracle s).2)
   = calls (trace s) ++
     ((λ x, (x :: args, kw)) <$>
      take (S (leading (outcomes (func (self s)) args kw (elems itrs))))
           (elems itrs)))
  ∧ (Z.min (total_in_effect itrs total) (ncpu (self s)) ≠ 1 →
     calls (trace (__call__ itrs args total kw oracle s).2)
     = calls (trace s)).
Proof.
  intros Hlen. rewrite call_exact. unfold call_outcome.
  rewrite decide_False
    by (intros [-> Hno]; rewrite Hlen in Hno; done).
  split; intros Hn.
  - rewrite decide_True by done. simpl.
    by rewrite calls_app; simpl; rewrite calls_serial_events.
  - rewrite decide_False by done. case_decide; simpl; rewrite calls_app.
    + case_decide; simpl; by rewrite app_nil_r.
    + by rewrite calls_parallel_events, app_nil_r.
Qed.

(** X15: past the sizing of the inputs, the first thing a call does is
    to log its branch: the serial notice when the effective count is 1,
    the parallel notice with the total and the count otherwise; when the
    count is at least 1 the progress bar is then opened with the total
    in effect and the description of the pool. *)
Theorem call_first_notice itrs args total kw oracle s :
  (total = None → has_len itrs = true) →
  ∃ new,
    trace (__call__ itrs args total kw oracle s).2
    = trace s ++
      (if decide (Z.min (total_in_effect itrs total) (ncpu (self s)) = 1)
       then LogSerial
       else LogParallel (total_in_effect itrs total)
              (Z.min (total_in_effect itrs total) (ncpu (self s)))) :: new
    ∧ (1 ≤ Z.min (total_in_effect itrs total) (ncpu (self s)) →
       BarOpen (total_in_effect itrs total) (desc (self s)) ∈ new).
Proof.
  intros Hlen. rewrite call_exact. unfold call_outcome.
  rewrite decide_False
    by (intros [-> Hno]; rewrite Hlen in Hno; done).
  case_decide as Hone; [|case_decide as Hlow]; simpl; eexists.
  - split; [done|]. intros _. by left.
  - split; [done|]. lia.
  - unfold parallel_events. split; [done|]. intros _.
    apply elem_of_app. right. by right; left.
Qed.

(** X16: the total only steers the display and the choice of the
    branch: two calls on the same pool, items, shared arguments and
    keywords return the same, whatever totals they are given, as long as
    both effective counts are at least 1. *)
Theorem total_only_steers itrs args total1 total2 kw oracle1 oracle2 s :
  (total1 = None → has_len itrs = true) →
  (total2 = None → has_len itrs = true) →
  1 ≤ Z.min (total_in_effect itrs total1) (ncpu (self s)) →
  1 ≤ Z.min (total_in_effect itrs total2) (ncpu (self s)) →
  (__call__ itrs args total1 kw oracle1 s).1
  = (__call__ itrs args total2 kw oracle2 s).1.
Proof.
  intros Hlen1 Hlen2 Hn1 Hn2.
  rewrite (call_result itrs args total1) by done.
  by rewrite (call_result itrs args total2) by done.
Qed.

(** X17: the work items are the items, in order, each followed by the
    shared arguments, and the worker applied to a work item while the
    keywords are bound gives what the function gives on the item, the
    shared arguments and the keywords. *)
Theorem worker_on_work_items this args kw (its : list V) :
  length (__zip__ its args) = length its
  ∧ ∀ i x, its !! i = Some x →
      __zip__ its args !! i = Some (x :: args)
      ∧ __worker__ (with_func this (bound_func (func this) kw)) (x :: args)
        = apply (func this) (x :: args) kw.
Proof.
  unfold __zip__. split; [apply length_map|].
  intros i x Hx. split.
  - change (map ?g its) with (g <$> its). by rewrite list_lookup_fmap, Hx.
  - unfold __worker__, bound_func. simpl.
    case_decide as Hkw; [by subst kw|apply apply_Partial_bare].
Qed.

End Branches.

(** ** The description of a pool *)

Lemma pretty_N_char_no_newline (x : N) :
  pretty_N_char x ≠ Ascii.ascii_of_nat 10.
Proof. unfold pretty_N_char. by repeat case_match. Qed.

Lemma pretty_N_go_no_newline (x : N) : ∀ s,
  no_newline s → no_newline (pretty_N_go x s).
Proof.
  induction (N.lt_wf_0 x) as [x _ IH]. intros s Hs.
  assert (x = 0 ∨ 0 < x)%N as [->|Hpos] by lia.
  - by rewrite pretty_N_go_0.
  - rewrite pretty_N_go_step by done. apply IH.
    + apply N.div_lt; lia.
    + split; [apply pretty_N_char_no_newline|done].
Qed.

Lemma pretty_Z_no_newline (z : Z) : no_newline (pretty z).
Proof.
  assert (∀ p, no_newline (pretty (N.pos p))) as Hpos.
  { intros p. unfold pretty, pretty_N. case_decide; [done|].
    by apply pretty_N_go_no_newline. }
  destruct z as [|p|p]; unfold pretty, pretty_Z; [done|apply Hpos|].
  split; [done|apply Hpos].
Qed.

Lemma first_line_app (s t : string) :
  no_newline s → first_line (s +:+ newline +:+ t) = s.
Proof.
  induction s as [|a s IH]; simpl; [done|].
  intros [Ha Hs]. rewrite decide_False by done. by rewrite IH.
Qed.

Section Describe.
Context {V E : Type}.
Variable repr : @callable V E → string.

(** X18: the description of a pool tells its worker count: two pools
    with the same description have the same count, whatever their
    functions are printed as. *)
Theorem str_determines_ncpu (this1 this2 : @Pool V E) :
  __str__ repr this1 = __str__ repr this2 → ncpu this1 = ncpu this2.
Proof.
  unfold __str__. simpl. intros Hstr.
  apply (inj (String.append "Pool object with:")) in Hstr.
  apply (inj (String.append newline)) in Hstr.
  simpl in Hstr. apply (inj (String.append "NCPU = ")) in Hstr.
  apply (f_equal first_line) in Hstr.
  rewrite !first_line_app in Hstr by apply pretty_Z_no_newline.
  by apply (inj pretty) in Hstr.
Qed.

End Describe.

(** ** The further properties on the sample pools *)

Lemma init_honours_request_in_range_witness :
  @__init__ Z string 4 8 (Func shift) (Some 2) "shift" = Ok shift_pool.
Proof.
  apply (init_honours_request_in_range 4 8 (Func shift) 2 "shift");
    [done|by vm_compute].
Defined.

Lemma init_count_bounds_witness :
  ncpu shift_pool ≤ 4 - 8 `div` 4
  ∧ (1 ≤ ncpu shift_pool ↔ 1 ≤ 4 - 8 `div` 4)
  ∧ (∀ n, Some 100 = Some n → 0 < n → ncpu shift_pool ≤ n).
Proof.
  apply (init_count_bounds 4 8 (Func shift) (Some 100) "shift" shift_pool).
  reflexivity.
Defined.

Lemma init_idempotent_witness :
  __init__ 4 8 (Func shift) (Some (ncpu shift_pool)) "shift" = Ok shift_pool.
Proof.
  apply (init_idempotent 4 8 (Func shift) (Some 100) "shift" shift_pool).
  reflexivity.
Defined.

Lemma init_default_leaves_one_group_witness :
  @__init__ Z string 4 (2 * 4) (Func shift) None "shift" = Ok shift_pool
  ∧ @__init__ Z string 4 4 (Func shift) None "shift"
    = Ok (mkPool (4 - 1) "shift" (Func shift)).
Proof.
  apply (init_default_leaves_one_group 4 2 (Func shift) "shift"). done.
Defined.

Lemma init_default_is_maximum_witness :
  ncpu (mkPool 1 "shift" (Func shift)) ≤ ncpu shift_pool.
Proof.
  apply (init_default_is_maximum 4 8 (Func shift) (Some 1) "shift"
           (mkPool 1 "shift" (Func shift)) shift_pool); reflexivity.
Defined.

Lemma call_results_align_witness :
  length [101; 102; 103; 104; 105] = length (elems five)
  ∧ ∀ i x, elems five !! i = Some x →
      ∃ v, [101; 102; 103; 104; 105] !! i = Some v
           ∧ apply (func (self (fresh double_pool))) (x :: []) offset100
             = inl v.
Proof.
  apply (call_results_align five [] None offset100 [1; 0; 1]%nat
           (fresh double_pool) [101; 102; 103; 104; 105]
           (__call__ five [] None offset100 [1; 0; 1]%nat
              (fresh double_pool)).2).
  vm_compute. reflexivity.
Defined.

Lemma call_first_failure_witness :
  (__call__ five [] None ∅ [1; 0; 1]%nat (fresh shift_pool)).1
  = Err (Raised "bad item"%string)
  ∧ ticks (trace (__call__ five [] None ∅ [1; 0; 1]%nat
                    (fresh shift_pool)).2)
    = (ticks (trace (fresh shift_pool)) + length [1; 2])%nat.
Proof.
  apply (call_first_failure five [] None ∅ [1; 0; 1]%nat (fresh shift_pool)
           [1; 2] "bad item"%string [inl 4; inl 5]);
    [done|by vm_compute|by vm_compute].
Defined.

Lemma kwargs_do_not_persist_after_success_witness :
  (__call__ two [] None ∅ []
     (__call__ five [] None offset100 [1; 0; 1]%nat (fresh double_pool)).2).1
  = (__call__ two [] None ∅ [] (fresh double_pool)).1.
Proof.
  apply (kwargs_do_not_persist_after_success
           five [] None offset100 [1; 0; 1]%nat (fresh double_pool)
           [101; 102; 103; 104; 105]).
  vm_compute. reflexivity.
Defined.

Lemma call_refused_without_worker_witness :
  (__call__ five [] (Some 0) offset100 [] (fresh shift_pool)).1
  = Err ValueError_processes
  ∧ calls (trace (__call__ five [] (Some 0) offset100 []
                    (fresh shift_pool)).2)
    = calls (trace (fresh shift_pool))
  ∧ opened (trace (__call__ five [] (Some 0) offset100 []
                     (fresh shift_pool)).2)
    = opened (trace (fresh shift_pool))
  ∧ ticks (trace (__call__ five [] (Some 0) offset100 []
                    (fresh shift_pool)).2)
    = ticks (trace (fresh shift_pool)).
Proof.
  apply (call_refused_without_worker five [] (Some 0) offset100 []
           (fresh shift_pool)); [done|by vm_compute].
Defined.

Lemma empty_input_is_refused_witness :
  (__call__ nothing [] None offset100 [] (fresh double_pool)).1
  = Err ValueError_processes.
Proof.
  apply (empty_input_is_refused nothing [] offset100 [] (fresh double_pool));
    reflexivity.
Defined.

Lemma serial_calls_in_order_witness :
  calls (trace (__call__ five [] None ∅ [] (fresh single_pool)).2)
  = [([1], ∅); ([2], ∅); ([3], ∅); ([4], ∅); ([5], ∅)].
Proof.
  apply (serial_calls_in_order five [] None ∅ [] (fresh single_pool));
    [done|by vm_compute].
Defined.

Lemma call_first_notice_witness :
  ∃ new,
    trace (__call__ five [] None ∅ [] (fresh double_pool)).2
    = trace (fresh double_pool) ++ LogParallel 5 2 :: new
    ∧ (1 ≤ 2 → BarOpen 5 "shift" ∈ new).
Proof.
  apply (call_first_notice five [] None ∅ [] (fresh double_pool)). done.
Defined.

Lemma total_only_steers_witness :
  (__call__ five [] None offset100 [1; 0; 1]%nat (fresh double_pool)).1
  = (__call__ five [] (Some 1) offset100 [] (fresh double_pool)).1.
Proof.
  apply (total_only_steers five [] None (Some 1) offset100 [1; 0; 1]%nat []
           (fresh double_pool)); (done || by vm_compute).
Defined.

Lemma str_determines_ncpu_witness :
  ncpu shift_pool = ncpu (mkPool 2 "other" (Func shift)).
Proof.
  apply (str_determines_ncpu (λ _, "<function shift>"%string)
           shift_pool (mkPool 2 "other" (Func shift))).
  reflexivity.
Defined.
